(** * MeanAbsoluteError: a streaming mean-absolute-error metric

    Shallow embedding of
    [pytorch_lightning/metrics/regression/mean_absolute_error.py].

    The metric keeps two registered states, [sum_abs_error] (a float32
    scalar tensor, default [torch.tensor(0.0)]) and [total] (an int64 scalar
    tensor, default [torch.tensor(0)]).  [update] folds one batch into the
    two states, [compute] divides them.

    Numbers are modelled as the code has them:
    - float32 values are IEEE-754 binary32 values, [spec_float] at
      precision 24 and maximal exponent 128 with round to nearest even, so
      that rounding, signed zeros, infinities and NaN are those of the
      tensor library;
    - [total] is a 64-bit two's complement integer with its wrap-around
      written out;
    - [sum_abs_error / total] promotes the int64 operand to float32 and
      divides in float32; division by zero does not raise.

    A method is a function from the object's state to an outcome (a value
    or a raised exception) and the state afterwards, written in a small
    state-and-exception monad that follows the statements of the source in
    order.

    The first part of the file holds the definitions, the second the
    properties: arithmetic of binary32 rounding, what one call does, and
    then the behaviour of sequences of calls. *)

From Stdlib Require Import String ZArith List Bool Lia.
From Stdlib Require Import Floats.SpecFloat.
Import ListNotations.
Local Open Scope Z_scope.

(** ** float32 scalars *)

Module F32.

Definition prec : Z := 24.
Definition emax : Z := 128.

Definition t : Type := spec_float.

(** [torch.tensor(0.0)] *)
Definition zero : t := S754_zero false.
Definition nan : t := S754_nan.
Definition inf : t := S754_infinity false.

Definition add : t -> t -> t := SFadd prec emax.
Definition sub : t -> t -> t := SFsub prec emax.
Definition div : t -> t -> t := SFdiv prec emax.
Definition abs : t -> t := SFabs.

(** The value [m * 2^e] rounded to float32; used for literals. *)
Definition of_dyadic (m e : Z) : t := binary_normalize prec emax m e false.

(** Conversion of an integer scalar to float32 (type promotion of an
    int64 operand in a float32 operation). *)
Definition of_int (z : Z) : t := of_dyadic z 0.

Definition leb : t -> t -> bool := SFleb.

Definition is_nan (x : t) : bool :=
  match x with S754_nan => true | _ => false end.

Definition is_finite (x : t) : bool :=
  match x with S754_zero _ | S754_finite _ _ _ => true | _ => false end.

(** A float32 bit pattern denotes a canonical value. *)
Definition valid (x : t) : bool := valid_binary prec emax x.

(** The sign bit is clear, or the value is NaN. *)
Definition sign_clear (x : t) : bool :=
  match x with
  | S754_nan => true
  | S754_zero s | S754_infinity s | S754_finite s _ _ => negb s
  end.

(** The finite value [m * 2^e] of sign [s], or the infinity of that sign
    when the exponent overflows. *)
Definition finite_or_inf (s : bool) (m : positive) (e : Z) : t :=
  if e <=? 104 then S754_finite s m e else S754_infinity s.

End F32.

(** ** int64 scalars *)

Module Int64.

Definition min_int : Z := - 2 ^ 63.
Definition max_int : Z := 2 ^ 63 - 1.

Definition wrap (z : Z) : Z := (z + 2 ^ 63) mod 2 ^ 64 - 2 ^ 63.

Definition add (a b : Z) : Z := wrap (a + b).

Definition in_range (z : Z) : Prop := min_int <= z <= max_int.

End Int64.

(** ** Tensors

    A tensor is its shape and its elements in row-major order.  Elements
    are float32, torch's default dtype and the dtype of [sum_abs_error]. *)

Record Tensor : Type := mkTensor {
  shape : list nat;
  data : list F32.t
}.

Fixpoint prod_dims (dims : list nat) : Z :=
  match dims with
  | [] => 1
  | d :: rest => Z.of_nat d * prod_dims rest
  end.

(** [Tensor.numel()] *)
Definition numel (x : Tensor) : Z := prod_dims (shape x).

(** What every torch tensor satisfies: the storage holds [numel] canonical
    float32 values and [numel] fits an int64. *)
Definition wf_tensor (x : Tensor) : Prop :=
  Z.of_nat (length (data x)) = numel x /\
  numel x <= Int64.max_int /\
  forallb F32.valid (data x) = true.

Fixpoint shape_eqb (s1 s2 : list nat) : bool :=
  match s1, s2 with
  | [], [] => true
  | a :: s1', b :: s2' => Nat.eqb a b && shape_eqb s1' s2'
  | _, _ => false
  end.

Fixpoint zip_with {A B C : Type} (f : A -> B -> C) (l1 : list A) (l2 : list B) : list C :=
  match l1, l2 with
  | a :: l1', b :: l2' => f a b :: zip_with f l1' l2'
  | _, _ => []
  end.

(** [preds - target] on tensors of one shape: elementwise. *)
Definition torch_sub (a b : Tensor) : Tensor :=
  {| shape := shape a; data := zip_with F32.sub (data a) (data b) |}.

(** [torch.abs] *)
Definition torch_abs (a : Tensor) : Tensor :=
  {| shape := shape a; data := map F32.abs (data a) |}.

(** [torch.sum]: the sum of all elements, accumulated in index order from
    [0.0].  The library leaves the order of accumulation open for long
    tensors; the general properties below are stated so that they hold
    for any order. *)
Definition torch_sum (a : Tensor) : F32.t :=
  fold_left F32.add (data a) F32.zero.


(** ** The metric object: state, exceptions, and a state-and-exception monad *)

Record MetricState : Type := mkState {
  sum_abs_error : F32.t;
  total : Z
}.

Inductive exn : Type :=
  | AssertionError (msg : string).

Inductive result (A : Type) : Type :=
  | Ok (a : A)
  | Raise (e : exn).
Arguments Ok {A} a.
Arguments Raise {A} e.

(** A method call: from the object's state to an outcome and the object's
    state afterwards (also when the call raised). *)
Definition M (A : Type) : Type := MetricState -> result A * MetricState.

Definition ret {A : Type} (a : A) : M A := fun st => (Ok a, st).

Definition bind {A B : Type} (c : M A) (k : A -> M B) : M B :=
  fun st =>
    match c st with
    | (Ok a, st') => k a st'
    | (Raise e, st') => (Raise e, st')
    end.

Definition raise {A : Type} (e : exn) : M A := fun st => (Raise e, st).

Definition get : M MetricState := fun st => (Ok st, st).

Declare Scope metric_scope.
Delimit Scope metric_scope with metric.
Notation "x <- c1 ;; c2" := (bind c1 (fun x => c2))
  (at level 61, c1 at next level, right associativity) : metric_scope.
Notation "c1 ;; c2" := (bind c1 (fun _ => c2))
  (at level 61, right associativity) : metric_scope.
Local Open Scope metric_scope.

(** [assert cond, msg] *)
Definition assert_ (cond : bool) (msg : string) : M unit :=
  if cond then ret tt else raise (AssertionError msg).

(** [self.sum_abs_error += v] *)
Definition iadd_sum_abs_error (v : F32.t) : M unit :=
  fun st => (Ok tt, {| sum_abs_error := F32.add (sum_abs_error st) v;
                       total := total st |}).

(** [self.total += n] *)
Definition iadd_total (n : Z) : M unit :=
  fun st => (Ok tt, {| sum_abs_error := sum_abs_error st;
                       total := Int64.add (total st) n |}).

Definition run {A : Type} (c : M A) (st : MetricState) : result A * MetricState := c st.
Definition exec {A : Type} (c : M A) (st : MetricState) : MetricState := snd (c st).
Definition eval {A : Type} (c : M A) (st : MetricState) : result A := fst (c st).

Module MeanAbsoluteError.

(** [__init__]: the defaults registered with [add_state]. *)
Definition init : MetricState :=
  {| sum_abs_error := F32.zero; total := 0 |}.

Definition shape_msg : string :=
  "Predictions and targets are expected to have the same shape".

Definition update (preds target : Tensor) : M unit :=
  assert_ (shape_eqb (shape preds) (shape target)) shape_msg ;;
  let abs_error := torch_abs (torch_sub preds target) in
  iadd_sum_abs_error (torch_sum abs_error) ;;
  iadd_total (numel target).

Definition compute : M F32.t :=
  st <- get ;;
  ret (F32.div (sum_abs_error st) (F32.of_int (total st))).

(** Modelled from the spec: [Metric.reset], of the base class
    [pytorch_lightning.metrics.metric.Metric], "restoring all registered
    state to its default". *)
Definition reset : M unit := fun _ => (Ok tt, init).

(** [compute()] called [n] times in a row; the results in call order. *)
Fixpoint compute_times (n : nat) : M (list F32.t) :=
  match n with
  | O => ret []
  | S n' => v <- compute ;; vs <- compute_times n' ;; ret (v :: vs)
  end.

(** The abs-error sum of one batch, [torch.sum(torch.abs(preds - target))]. *)
Definition batch_error (preds target : Tensor) : F32.t :=
  torch_sum (torch_abs (torch_sub preds target)).

(** States of a metric object: after construction, after a successful
    [update] on well-formed tensors, after [reset]. *)
Inductive reachable : MetricState -> Prop :=
| reach_init : reachable init
| reach_update st preds target st' :
    reachable st -> wf_tensor preds -> wf_tensor target ->
    run (update preds target) st = (Ok tt, st') ->
    reachable st'
| reach_reset st : reachable st -> reachable (exec reset st).

End MeanAbsoluteError.

Import MeanAbsoluteError.


(** ** float64 inputs

    [update] does not fix the dtype of [preds] and [target].  With float64
    tensors the same statements run at float64: the difference, the
    absolute value and the sum are float64, and the in-place addition into
    the float32 state [sum_abs_error] computes in float64 and rounds the
    result to float32. *)

Module F64.

Definition prec : Z := 53.
Definition emax : Z := 1024.

Definition t : Type := spec_float.

Definition zero : t := S754_zero false.

Definition add : t -> t -> t := SFadd prec emax.
Definition sub : t -> t -> t := SFsub prec emax.
Definition div : t -> t -> t := SFdiv prec emax.
Definition abs : t -> t := SFabs.

(** The value [m * 2^e] rounded to float64; used for literals. *)
Definition of_dyadic (m e : Z) : t := binary_normalize prec emax m e false.

Definition of_int (z : Z) : t := of_dyadic z 0.

(** Widening a float32 to float64; exact. *)
Definition of_f32 (x : F32.t) : t :=
  match x with
  | S754_finite s m e => binary_round prec emax s m e
  | _ => x
  end.

End F64.

(** Narrowing a float64 to float32: round to nearest even. *)
Definition round_to_f32 (x : F64.t) : F32.t :=
  match x with
  | S754_finite s m e => binary_round F32.prec F32.emax s m e
  | _ => x
  end.

Record Tensor64 : Type := mkTensor64 {
  shape64 : list nat;
  data64 : list F64.t
}.

Definition numel64 (x : Tensor64) : Z := prod_dims (shape64 x).

Definition torch_sub64 (a b : Tensor64) : Tensor64 :=
  {| shape64 := shape64 a; data64 := zip_with F64.sub (data64 a) (data64 b) |}.

Definition torch_abs64 (a : Tensor64) : Tensor64 :=
  {| shape64 := shape64 a; data64 := map F64.abs (data64 a) |}.

Definition torch_sum64 (a : Tensor64) : F64.t :=
  fold_left F64.add (data64 a) F64.zero.

(** [self.sum_abs_error += v] for a float64 [v]: the float32 state is
    widened, the sum is taken in float64 and stored back as float32. *)
Definition iadd_sum_abs_error_f64 (v : F64.t) : M unit :=
  fun st => (Ok tt, {| sum_abs_error :=
                         round_to_f32 (F64.add (F64.of_f32 (sum_abs_error st)) v);
                       total := total st |}).

(** [MeanAbsoluteError.update] on float64 tensors. *)
Definition update_f64 (preds target : Tensor64) : M unit :=
  assert_ (shape_eqb (shape64 preds) (shape64 target)) shape_msg ;;
  let abs_error := torch_abs64 (torch_sub64 preds target) in
  iadd_sum_abs_error_f64 (torch_sum64 abs_error) ;;
  iadd_total (numel64 target).

(** A 1-D float64 tensor, [torch.tensor([x0, ...], dtype=torch.float64)]. *)
Definition tensor64_1 (xs : list F64.t) : Tensor64 :=
  {| shape64 := [length xs]; data64 := xs |}.

(** [16777217.0 = 2^24 + 1] is a float64 but not a float32. *)
Definition wide_preds : Tensor64 := tensor64_1 [F64.of_dyadic 16777217 0].
Definition wide_target : Tensor64 := tensor64_1 [F64.zero].

(** ** Literals used in the examples *)

(** A 1-D float32 tensor, [torch.tensor([x0, x1, ...])]. *)
Definition tensor1 (xs : list F32.t) : Tensor :=
  {| shape := [length xs]; data := xs |}.

(** [preds = torch.tensor([2.5, 0.0, 2.0, 8.0])] of the docstring. *)
Definition doc_preds : Tensor :=
  tensor1 [F32.of_dyadic 5 (-1); F32.of_dyadic 0 0; F32.of_dyadic 2 0; F32.of_dyadic 8 0].

(** [target = torch.tensor([3.0, -0.5, 2.0, 7.0])] of the docstring. *)
Definition doc_target : Tensor :=
  tensor1 [F32.of_dyadic 3 0; F32.of_dyadic (-1) (-1); F32.of_dyadic 2 0; F32.of_dyadic 7 0].

(** [2^24 = 16777216.0], the first float32 whose successor is 2 away. *)
Definition two24 : F32.t := F32.of_dyadic 1 24.
Definition one : F32.t := F32.of_dyadic 1 0.
Definition two : F32.t := F32.of_dyadic 2 0.

(** Batches that separate the association orders of float32 addition. *)
Definition big_preds : Tensor := tensor1 [two24].
Definition big_target : Tensor := tensor1 [F32.zero].
Definition ones_preds : Tensor := tensor1 [one; one].
Definition ones_target : Tensor := tensor1 [F32.zero; F32.zero].
Definition one_preds : Tensor := tensor1 [one].
Definition two_preds : Tensor := tensor1 [two].
Definition zero_target : Tensor := tensor1 [F32.zero].

(** A batch holding a NaN prediction. *)
Definition nan_preds : Tensor := tensor1 [F32.nan].

(** ** Sequences of calls *)

(** [for preds, target in batches: metric.update(preds, target)] *)
Fixpoint update_all (batches : list (Tensor * Tensor)) : M unit :=
  match batches with
  | [] => ret tt
  | (preds, target) :: rest => update preds target ;; update_all rest
  end.

(** Every batch pairs tensors of one shape. *)
Definition same_shapes (batches : list (Tensor * Tensor)) : Prop :=
  Forall (fun b => shape (fst b) = shape (snd b)) batches.

(** The number of target elements in a sequence of batches. *)
Fixpoint count_elements (batches : list (Tensor * Tensor)) : Z :=
  match batches with
  | [] => 0
  | (_, target) :: rest => numel target + count_elements rest
  end.

(** A pair of elements whose difference is NaN: one of them is NaN, or
    both are infinities of one sign. *)
Definition nan_pair (x y : F32.t) : Prop :=
  x = F32.nan \/ y = F32.nan \/ exists s, x = S754_infinity s /\ y = S754_infinity s.

(** No element is a NaN or an infinity. *)
Definition all_finite (x : Tensor) : bool := forallb F32.is_finite (data x).

(** Batches of well-formed tensors of one shape that hold neither NaN nor
    infinities. *)
Definition finite_batches (batches : list (Tensor * Tensor)) : Prop :=
  Forall (fun b => shape (fst b) = shape (snd b) /\
                   wf_tensor (fst b) /\ wf_tensor (snd b) /\
                   all_finite (fst b) = true /\ all_finite (snd b) = true) batches.

(** The largest finite float32, [(2^24 - 1) * 2^104]. *)
Definition max_float : F32.t := S754_finite false 16777215 104.


(** ** Integer-valued data *)







(** * Properties *)

(** ** Shapes, element counts and int64 arithmetic *)

Lemma shape_eqb_eq (s1 s2 : list nat) : shape_eqb s1 s2 = true <-> s1 = s2.
Proof.
  revert s2; induction s1 as [|a s1 IH]; intros [|b s2]; simpl; split;
    try congruence; try reflexivity.
  - rewrite andb_true_iff, Nat.eqb_eq, IH. intros [-> ->]; reflexivity.
  - intros H; injection H as -> ->. rewrite Nat.eqb_refl. simpl. apply IH; reflexivity.
Qed.

Lemma shape_eqb_neq (s1 s2 : list nat) : s1 <> s2 -> shape_eqb s1 s2 = false.
Proof.
  intros H. destruct (shape_eqb s1 s2) eqn:E; [|reflexivity].
  apply shape_eqb_eq in E. contradiction.
Qed.

Lemma prod_dims_nonneg (dims : list nat) : 0 <= prod_dims dims.
Proof. induction dims; simpl; lia. Qed.

Lemma numel_nonneg (x : Tensor) : 0 <= numel x.
Proof. apply prod_dims_nonneg. Qed.

Lemma wrap_in_range (z : Z) : Int64.in_range (Int64.wrap z).
Proof.
  unfold Int64.in_range, Int64.wrap, Int64.min_int, Int64.max_int.
  pose proof (Z.mod_pos_bound (z + 2 ^ 63) (2 ^ 64) ltac:(lia)). lia.
Qed.

Lemma wrap_id (z : Z) : Int64.in_range z -> Int64.wrap z = z.
Proof.
  unfold Int64.in_range, Int64.wrap, Int64.min_int, Int64.max_int. intros H.
  rewrite Z.mod_small; lia.
Qed.

Lemma wrap_add_wrap_l (a b : Z) : Int64.wrap (Int64.wrap a + b) = Int64.wrap (a + b).
Proof.
  unfold Int64.wrap.
  replace ((a + 2 ^ 63) mod 2 ^ 64 - 2 ^ 63 + b + 2 ^ 63)
    with ((a + 2 ^ 63) mod 2 ^ 64 + b) by lia.
  rewrite Zplus_mod_idemp_l. f_equal. f_equal. lia.
Qed.

(** * Rounding to binary32 *)

(** ** Binary digits *)

Lemma digits2_pos_bounds (p : positive) :
  2 ^ (Zpos (digits2_pos p) - 1) <= Zpos p < 2 ^ Zpos (digits2_pos p).
Proof.
  induction p as [p IH|p IH|]; cbn [digits2_pos].
  - rewrite Pos2Z.inj_succ. replace (Z.succ (Zpos (digits2_pos p)) - 1) with (Z.succ (Zpos (digits2_pos p) - 1)) by lia.
    rewrite !Z.pow_succ_r by lia. lia.
  - rewrite Pos2Z.inj_succ. replace (Z.succ (Zpos (digits2_pos p)) - 1) with (Z.succ (Zpos (digits2_pos p) - 1)) by lia.
    rewrite !Z.pow_succ_r by lia. lia.
  - simpl. lia.
Qed.

Lemma digits2_pos_unique (p : positive) (k : Z) :
  2 ^ (k - 1) <= Zpos p < 2 ^ k -> Zpos (digits2_pos p) = k.
Proof.
  intros [Hlo Hhi]. pose proof (digits2_pos_bounds p) as [Dlo Dhi].
  assert (0 < k).
  { destruct (Z.ltb_spec 0 k); [assumption|].
    assert (2 ^ k <= 2 ^ 0) by (destruct k; simpl; try lia; rewrite Z.pow_neg_r in *; lia).
    simpl in *. lia. }
  destruct (Z.lt_trichotomy (Zpos (digits2_pos p)) k) as [L|[E|G]]; [|assumption|].
  - assert (2 ^ Zpos (digits2_pos p) <= 2 ^ (k - 1)) by (apply Z.pow_le_mono_r; lia). lia.
  - assert (2 ^ k <= 2 ^ (Zpos (digits2_pos p) - 1)) by (apply Z.pow_le_mono_r; lia). lia.
Qed.

Lemma iter_xO_spec (d m : positive) :
  Zpos (Pos.iter xO m d) = Zpos m * 2 ^ Zpos d.
Proof.
  induction d as [|d IH] using Pos.peano_ind.
  - simpl. lia.
  - rewrite Pos.iter_succ, Pos2Z.inj_succ, Z.pow_succ_r by lia.
    rewrite Pos2Z.inj_xO, IH. lia.
Qed.

Lemma shl_align_spec (mx : positive) (ex ex' : Z) :
  (ex' < ex ->
   Zpos (fst (shl_align mx ex ex')) = Zpos mx * 2 ^ (ex - ex') /\
   snd (shl_align mx ex ex') = ex') /\
  (ex <= ex' -> shl_align mx ex ex' = (mx, ex)).
Proof.
  unfold shl_align. destruct (ex' - ex) as [|d|d] eqn:E; split; intros H; try lia;
    try reflexivity.
  cbn [fst snd]. rewrite iter_xO_spec. split; [|reflexivity].
  replace (ex - ex') with (Zpos d) by lia. reflexivity.
Qed.

(** ** Shifting right *)

Lemma shr_1_m (mrs : shr_record) :
  0 <= shr_m mrs -> shr_m (shr_1 mrs) = shr_m mrs / 2.
Proof.
  destruct mrs as [m r s]. cbn [shr_m]. intros H.
  destruct m as [|[p|p|]|p]; cbn [shr_1 shr_m]; try lia; try reflexivity.
  - apply Z.div_unique with (r := 1); lia.
  - apply Z.div_unique with (r := 0); lia.
Qed.

Lemma iter_shr_1_m (n : positive) (mrs : shr_record) :
  0 <= shr_m mrs ->
  shr_m (iter_pos shr_1 n mrs) = shr_m mrs / 2 ^ Zpos n.
Proof.
  revert mrs; induction n as [n IH|n IH|]; intros mrs H; cbn [iter_pos].
  - assert (H1 : 0 <= shr_m (shr_1 mrs)) by (rewrite shr_1_m by assumption; apply Z.div_pos; lia).
    assert (H2 : 0 <= shr_m (iter_pos shr_1 n (shr_1 mrs)))
      by (rewrite IH by assumption; apply Z.div_pos; lia).
    rewrite IH, IH, shr_1_m by assumption.
    rewrite !Z.div_div by lia. f_equal.
    rewrite Pos2Z.inj_xI. rewrite Z.pow_add_r, Z.pow_mul_r by lia.
    change (2 ^ 2) with 4. change (2 ^ 1) with 2.
    replace (4 ^ Zpos n) with (2 ^ Zpos n * 2 ^ Zpos n); [lia|].
    rewrite <- Z.pow_add_r by lia. change 4 with (2 ^ 2). rewrite <- Z.pow_mul_r by lia.
    f_equal. lia.
  - assert (H2 : 0 <= shr_m (iter_pos shr_1 n mrs))
      by (rewrite IH by assumption; apply Z.div_pos; lia).
    rewrite IH, IH by assumption.
    rewrite !Z.div_div by lia. f_equal.
    rewrite Pos2Z.inj_xO. rewrite <- Z.pow_add_r by lia. f_equal. lia.
  - rewrite shr_1_m by assumption. reflexivity.
Qed.

(** ** Canonical binary32 mantissas *)

Lemma fexp_eq (k : Z) : fexp F32.prec F32.emax k = Z.max (k - 24) (-149).
Proof. reflexivity. Qed.

Lemma canonical_bounds (m : positive) (e : Z) :
  canonical_mantissa F32.prec F32.emax m e = true ->
  -149 <= e /\ Zpos m < 2 ^ 24 /\ (-149 < e -> 2 ^ 23 <= Zpos m).
Proof.
  unfold canonical_mantissa. rewrite fexp_eq. intros H. apply Z.eqb_eq in H.
  pose proof (digits2_pos_bounds m) as [Dlo Dhi].
  assert (D24 : Zpos (digits2_pos m) <= 24) by lia.
  split; [lia|]. split.
  - apply Z.lt_le_trans with (1 := Dhi). apply Z.pow_le_mono_r; lia.
  - intros He. replace (Zpos (digits2_pos m)) with 24 in Dlo by lia. exact Dlo.
Qed.

Lemma shr_fexp_exact (m : positive) (e : Z) :
  fexp F32.prec F32.emax (Zpos (digits2_pos m) + e) = e ->
  shr_fexp F32.prec F32.emax (Zpos m) e loc_Exact
  = ({| shr_m := Zpos m; shr_r := false; shr_s := false |}, e).
Proof.
  intros H. unfold shr_fexp. cbn [Zdigits2]. rewrite H, Z.sub_diag. reflexivity.
Qed.

Lemma binary_round_aux_exact (s : bool) (m : positive) (e : Z) :
  fexp F32.prec F32.emax (Zpos (digits2_pos m) + e) = e ->
  binary_round_aux F32.prec F32.emax s (Zpos m) e loc_Exact = F32.finite_or_inf s m e.
Proof.
  intros H. unfold binary_round_aux. rewrite (shr_fexp_exact m e H).
  cbn [shr_m loc_of_shr_record round_nearest_even].
  rewrite (shr_fexp_exact m e H). reflexivity.
Qed.

Lemma round_nearest_even_cases (m : Z) (l : location) :
  round_nearest_even m l = m \/ round_nearest_even m l = m + 1.
Proof.
  destruct l as [|[]]; cbn [round_nearest_even]; auto.
  destruct (Z.even m); auto.
Qed.

Lemma digits2_pos_shift (m : positive) (k : Z) (m' : positive) :
  0 <= k -> Zpos m' = Zpos m * 2 ^ k ->
  Zpos (digits2_pos m') = Zpos (digits2_pos m) + k.
Proof.
  intros Hk Hm. apply digits2_pos_unique. rewrite Hm.
  pose proof (digits2_pos_bounds m) as [Dlo Dhi].
  replace (Zpos (digits2_pos m) + k - 1) with (Zpos (digits2_pos m) - 1 + k) by lia.
  rewrite !Z.pow_add_r by lia.
  assert (0 < 2 ^ k) by (apply Z.pow_pos_nonneg; lia).
  split; [apply Z.mul_le_mono_nonneg_r | apply Z.mul_lt_mono_pos_r]; lia.
Qed.

(** Rounding a positive dyadic [M * 2^e] to binary32: the result is a
    canonical finite number, or an infinity on overflow, and is not below
    the round-down of the value. *)
Lemma binary_round_spec (s : bool) (M : positive) (e : Z) :
  -149 <= e ->
  exists m' e',
    binary_round F32.prec F32.emax s M e = F32.finite_or_inf s m' e' /\
    canonical_mantissa F32.prec F32.emax m' e' = true /\
    Zpos M * 2 ^ (e + 149) < (Zpos m' + 1) * 2 ^ (e' + 149).
Proof.
  intros He. pose proof (digits2_pos_bounds M) as [Dlo Dhi].
  set (d := Zpos (digits2_pos M)) in *.
  unfold binary_round. fold d. rewrite fexp_eq.
  destruct (Z.le_gt_cases d 24) as [Hd|Hd].
  - (* the value fits the precision: no rounding *)
    set (e1 := Z.max (d + e - 24) (-149)). assert (He1 : e1 <= e) by lia.
    assert (Hal : Zpos (fst (shl_align M e e1)) = Zpos M * 2 ^ (e - e1) /\
                  snd (shl_align M e e1) = e1).
    { destruct (shl_align_spec M e e1) as [Hlt Hge].
      destruct (Z.eq_dec e e1) as [E|E].
      - rewrite Hge by lia. cbn [fst snd]. rewrite E, Z.sub_diag. simpl. lia.
      - apply Hlt. lia. }
    destruct (shl_align M e e1) as [mz ez]. cbn [fst snd] in Hal.
    destruct Hal as [Hmz ->].
    pose proof (digits2_pos_shift M (e - e1) mz ltac:(lia) Hmz) as Hdz. fold d in Hdz.
    assert (Hfexp : fexp F32.prec F32.emax (Zpos (digits2_pos mz) + e1) = e1).
    { rewrite fexp_eq, Hdz. unfold e1. lia. }
    exists mz, e1. split; [apply binary_round_aux_exact; assumption|]. split.
    + unfold canonical_mantissa. rewrite Hfexp. apply Z.eqb_refl.
    + rewrite Hmz. replace (e + 149) with (e - e1 + (e1 + 149)) by lia.
      rewrite (Z.pow_add_r 2 (e - e1) (e1 + 149)) by lia.
      assert (0 < 2 ^ (e1 + 149)) by (apply Z.pow_pos_nonneg; lia).
      assert (0 < 2 ^ (e - e1)) by (apply Z.pow_pos_nonneg; lia).
      nia.
  - (* more than 24 digits: shift right and round *)
    replace (Z.max (d + e - 24) (-149)) with (d + e - 24) by lia.
    set (e1 := d + e - 24).
    destruct (shl_align_spec M e e1) as [_ Hge]. rewrite Hge by (unfold e1; lia).
    unfold binary_round_aux.
    assert (Hshr : exists mrs,
      shr_fexp F32.prec F32.emax (Zpos M) e loc_Exact = (mrs, e1) /\
      shr_m mrs = Zpos M / 2 ^ (d - 24)).
    { unfold shr_fexp. cbn [Zdigits2]. fold d. rewrite fexp_eq.
      replace (Z.max (d + e - 24) (-149) - e) with (d - 24) by lia.
      destruct (d - 24) as [|n|n] eqn:En; try lia.
      unfold shr. eexists. split.
      - f_equal. unfold e1. lia.
      - rewrite iter_shr_1_m; cbn [shr_record_of_loc shr_m]; [reflexivity | lia]. }
    destruct Hshr as (mrs & -> & Hq).
    set (q := Zpos M / 2 ^ (d - 24)) in *.
    assert (Hpow : 0 < 2 ^ (d - 24)) by (apply Z.pow_pos_nonneg; lia).
    assert (Hq23 : 2 ^ 23 <= q).
    { apply Z.div_le_lower_bound; [assumption|].
      rewrite <- Z.pow_add_r by lia. replace (d - 24 + 23) with (d - 1) by lia. exact Dlo. }
    assert (Hq24 : q < 2 ^ 24).
    { apply Z.div_lt_upper_bound; [assumption|].
      rewrite <- Z.pow_add_r by lia. replace (d - 24 + 24) with d by lia. exact Dhi. }
    assert (HM : Zpos M < (q + 1) * 2 ^ (d - 24)).
    { pose proof (Z.div_mod (Zpos M) (2 ^ (d - 24)) ltac:(lia)) as Hdm.
      pose proof (Z.mod_pos_bound (Zpos M) (2 ^ (d - 24)) Hpow) as Hmod.
      fold q in Hdm. lia. }
    assert (Hval : forall r, q <= r ->
      Zpos M * 2 ^ (e + 149) < (r + 1) * 2 ^ (e1 + 149)).
    { intros r Hr. unfold e1. replace (d + e - 24 + 149) with (d - 24 + (e + 149)) by lia.
      rewrite (Z.pow_add_r 2 (d - 24) (e + 149)) by lia.
      assert (0 < 2 ^ (e + 149)) by (apply Z.pow_pos_nonneg; lia).
      nia. }
    destruct (round_nearest_even_cases (shr_m mrs) (loc_of_shr_record mrs)) as [Hr|Hr];
      rewrite Hr, Hq.
    + (* rounded down *)
      destruct q as [|r|r] eqn:Eq; try (simpl in Hq23; lia).
      assert (Hdr : Zpos (digits2_pos r) = 24)
        by (apply digits2_pos_unique; simpl in *; lia).
      assert (Hfexp : fexp F32.prec F32.emax (Zpos (digits2_pos r) + e1) = e1)
        by (rewrite fexp_eq, Hdr; unfold e1; lia).
      rewrite (shr_fexp_exact r e1 Hfexp). cbn [shr_m].
      exists r, e1. split; [reflexivity|]. split.
      * unfold canonical_mantissa. rewrite Hfexp. apply Z.eqb_refl.
      * apply Hval. lia.
    + (* rounded up *)
      destruct (Z.eq_dec (q + 1) (2 ^ 24)) as [Hcarry|Hcarry].
      * rewrite Hcarry. change (2 ^ 24) with (Zpos 16777216).
        unfold shr_fexp. cbn [Zdigits2 digits2_pos Pos.succ]. rewrite fexp_eq.
        replace (Z.max (25 + e1 - 24) (-149) - e1) with 1 by (unfold e1; lia).
        cbn [shr shr_record_of_loc iter_pos shr_1 shr_m].
        exists 8388608%positive, (e1 + 1). split; [reflexivity|]. split.
        -- unfold canonical_mantissa. rewrite fexp_eq. cbn [digits2_pos Pos.succ].
           apply Z.eqb_eq. unfold e1. lia.
        -- specialize (Hval q ltac:(lia)). rewrite Hcarry in Hval.
           replace (e1 + 1 + 149) with (1 + (e1 + 149)) by lia.
           rewrite (Z.pow_add_r 2 1 (e1 + 149)) by (unfold e1; lia).
           assert (0 < 2 ^ (e1 + 149)) by (apply Z.pow_pos_nonneg; unfold e1; lia).
           change (2 ^ 24) with 16777216 in Hval. change (2 ^ 1) with 2. lia.
      * destruct (q + 1) as [|r|r] eqn:Eq; try (simpl in Hq23; lia).
        assert (Hdr : Zpos (digits2_pos r) = 24)
          by (apply digits2_pos_unique; simpl in *; lia).
        assert (Hfexp : fexp F32.prec F32.emax (Zpos (digits2_pos r) + e1) = e1)
          by (rewrite fexp_eq, Hdr; unfold e1; lia).
        rewrite (shr_fexp_exact r e1 Hfexp). cbn [shr_m].
        exists r, e1. split; [reflexivity|]. split.
        -- unfold canonical_mantissa. rewrite Hfexp. apply Z.eqb_refl.
        -- rewrite <- Eq. apply Hval. lia.
Qed.

(** ** Signs of float32 results *)

Lemma binary_round_aux_sign (s : bool) (m e : Z) (l : location) :
  F32.sign_clear (binary_round_aux F32.prec F32.emax s m e l) = true \/
  binary_round_aux F32.prec F32.emax s m e l = S754_zero s \/
  binary_round_aux F32.prec F32.emax s m e l = S754_infinity s \/
  exists m' e', binary_round_aux F32.prec F32.emax s m e l = S754_finite s m' e'.
Proof.
  unfold binary_round_aux.
  destruct (shr_fexp _ _ m e l) as [mrs' e'].
  destruct (shr_fexp _ _ _ e' loc_Exact) as [mrs'' e''].
  destruct (shr_m mrs'') as [|p|p].
  - right; left; reflexivity.
  - destruct (Z.leb e'' _); [right; right; right; eauto | right; right; left; reflexivity].
  - left; reflexivity.
Qed.

Lemma binary_round_aux_sign_clear (m e : Z) (l : location) :
  F32.sign_clear (binary_round_aux F32.prec F32.emax false m e l) = true.
Proof.
  destruct (binary_round_aux_sign false m e l) as [H|[H|[H|(m' & e' & H)]]];
    [assumption | rewrite H; reflexivity ..].
Qed.

Lemma binary_round_sign_clear (m : positive) (e : Z) :
  F32.sign_clear (binary_round F32.prec F32.emax false m e) = true.
Proof.
  unfold binary_round. destruct (shl_align _ _ _) as [mz ez].
  apply binary_round_aux_sign_clear.
Qed.

Lemma add_sign_clear (x y : F32.t) :
  F32.sign_clear x = true -> F32.sign_clear y = true ->
  F32.sign_clear (F32.add x y) = true.
Proof.
  destruct x as [[]|[]| |[] mx ex], y as [[]|[]| |[] my ey]; simpl; try congruence;
    intros _ _.
  apply binary_round_sign_clear.
Qed.

Lemma abs_sign_clear (x : F32.t) : F32.sign_clear (F32.abs x) = true.
Proof. destruct x; reflexivity. Qed.

Lemma add_zero_l (x : F32.t) :
  F32.sign_clear x = true -> F32.add F32.zero x = x.
Proof. destruct x as [[]|[]| |[] mx ex]; cbv; congruence. Qed.

Lemma add_zero_r (x : F32.t) :
  F32.sign_clear x = true -> F32.add x F32.zero = x.
Proof. destruct x as [[]|[]| |[] mx ex]; cbv; congruence. Qed.

Lemma fold_add_sign_clear (l : list F32.t) (acc : F32.t) :
  F32.sign_clear acc = true -> forallb F32.sign_clear l = true ->
  F32.sign_clear (fold_left F32.add l acc) = true.
Proof.
  revert acc; induction l as [|x l IH]; simpl; intros acc Ha Hl; [assumption|].
  apply andb_true_iff in Hl as [Hx Hl]. apply IH; [|assumption].
  apply add_sign_clear; assumption.
Qed.

Lemma forallb_sign_clear_abs (l : list F32.t) :
  forallb F32.sign_clear (map F32.abs l) = true.
Proof. induction l; simpl; [reflexivity|]. rewrite abs_sign_clear. assumption. Qed.

Lemma batch_error_sign_clear (preds target : Tensor) :
  F32.sign_clear (batch_error preds target) = true.
Proof.
  unfold batch_error, torch_sum, torch_abs; simpl.
  apply fold_add_sign_clear; [reflexivity | apply forallb_sign_clear_abs].
Qed.

(** ** What one call does *)

(** Well-formedness of a tensor literal, by evaluation. *)
Ltac wf_literal :=
  split; [reflexivity | split; [vm_compute; discriminate | reflexivity]].


Lemma run_update_ok (preds target : Tensor) (st : MetricState) :
  shape preds = shape target ->
  run (update preds target) st =
  (Ok tt, {| sum_abs_error := F32.add (sum_abs_error st) (batch_error preds target);
             total := Int64.add (total st) (numel target) |}).
Proof.
  intros H. apply shape_eqb_eq in H.
  unfold run, update, bind, assert_. rewrite H. reflexivity.
Qed.

Lemma run_update_raise (preds target : Tensor) (st : MetricState) :
  shape preds <> shape target ->
  run (update preds target) st = (Raise (AssertionError shape_msg), st).
Proof.
  intros H. apply shape_eqb_neq in H.
  unfold run, update, bind, assert_. rewrite H. reflexivity.
Qed.

Lemma compute_eq (st : MetricState) :
  compute st = (Ok (F32.div (sum_abs_error st) (F32.of_int (total st))), st).
Proof. reflexivity. Qed.

Lemma run_update_inv (preds target : Tensor) (st st' : MetricState) :
  run (update preds target) st = (Ok tt, st') ->
  shape preds = shape target /\
  st' = {| sum_abs_error := F32.add (sum_abs_error st) (batch_error preds target);
           total := Int64.add (total st) (numel target) |}.
Proof.
  intros H. destruct (shape_eqb (shape preds) (shape target)) eqn:E.
  - apply shape_eqb_eq in E. rewrite (run_update_ok _ _ _ E) in H.
    split; [assumption | congruence].
  - unfold run, update, bind, assert_ in H. rewrite E in H. discriminate.
Qed.

(** The sign bit of [sum_abs_error] is never set and [total] is an int64. *)
Lemma reachable_inv (st : MetricState) :
  reachable st ->
  F32.sign_clear (sum_abs_error st) = true /\ Int64.in_range (total st).
Proof.
  induction 1 as [|st preds target st' _ IH _ _ Hrun|st _ _].
  - split; [reflexivity | unfold Int64.in_range, Int64.min_int, Int64.max_int; simpl; lia].
  - apply run_update_inv in Hrun as [_ ->]; simpl. destruct IH as [IH _]. split.
    + apply add_sign_clear; [assumption | apply batch_error_sign_clear].
    + apply wrap_in_range.
  - split; [reflexivity | unfold Int64.in_range, Int64.min_int, Int64.max_int; simpl; lia].
Qed.

(** ** One update, then compute *)

(** C1, amended: on a freshly constructed accumulator, and on a freshly
    reset one, [compute()] after exactly one [update(preds, target)] with
    float32 tensors of one shape returns
    [sum(abs(preds - target)) / numel(target)], the division taken in
    float32. *)
Theorem compute_after_one_update (preds target : Tensor) :
  shape preds = shape target ->
  wf_tensor target ->
  eval (update preds target ;; compute) init
    = Ok (F32.div (torch_sum (torch_abs (torch_sub preds target)))
                  (F32.of_int (numel target)))
  /\ forall st,
      eval (reset ;; update preds target ;; compute) st
        = Ok (F32.div (torch_sum (torch_abs (torch_sub preds target)))
                      (F32.of_int (numel target))).
Proof.
  intros Hshape (_ & Hmax & _).
  assert (Hone : eval (update preds target ;; compute) init
    = Ok (F32.div (torch_sum (torch_abs (torch_sub preds target)))
                  (F32.of_int (numel target)))).
  { unfold eval, bind.
    pose proof (run_update_ok preds target init Hshape) as Hrun.
    unfold run in Hrun. rewrite Hrun, compute_eq.
    cbn [fst sum_abs_error total init].
    rewrite add_zero_l by apply batch_error_sign_clear.
    unfold Int64.add. rewrite Z.add_0_l.
    rewrite wrap_id; [reflexivity|].
    pose proof (numel_nonneg target).
    unfold Int64.in_range, Int64.min_int, Int64.max_int in *. lia. }
  split; [exact Hone|].
  intros st. exact Hone.
Qed.

Lemma compute_after_one_update_witness :
  eval (update doc_preds doc_target ;; compute) init
    = Ok (F32.div (torch_sum (torch_abs (torch_sub doc_preds doc_target)))
                  (F32.of_int (numel doc_target))).
Proof.
  apply (compute_after_one_update doc_preds doc_target).
  - reflexivity.
  - wf_literal.
Defined.

(** C1, as stated for every numeric input, fails on float64 tensors: after
    [update(preds=[16777217.0], target=[0.0])] with float64 tensors the
    float32 state holds [16777216.0], so [compute()] returns
    [16777216.0], whereas [sum(abs(preds - target)) / numel(target)] is
    the float64 [16777217.0]. *)
Lemma one_update_float64_counterexample :
  shape64 wide_preds = shape64 wide_target
  /\ eval (update_f64 wide_preds wide_target ;; compute) init = Ok (F32.of_dyadic 16777216 0)
  /\ F64.div (torch_sum64 (torch_abs64 (torch_sub64 wide_preds wide_target)))
             (F64.of_int (numel64 wide_target))
     = F64.of_dyadic 16777217 0
  /\ F64.of_f32 (F32.of_dyadic 16777216 0) = F64.of_dyadic 16777216 0
  /\ F64.of_dyadic 16777216 0 <> F64.of_dyadic 16777217 0.
Proof. repeat split; vm_compute; try reflexivity; discriminate. Qed.

(** ** Shape mismatch *)

(** C2: when [preds.shape != target.shape], [update] raises (the
    [AssertionError] of its [assert], the spec's ShapeMismatchError) and
    both [sum_abs_error] and [total] are exactly as before the call. *)
Theorem update_shape_mismatch (st : MetricState) (preds target : Tensor) :
  shape preds <> shape target ->
  run (update preds target) st = (Raise (AssertionError shape_msg), st)
  /\ sum_abs_error (exec (update preds target) st) = sum_abs_error st
  /\ total (exec (update preds target) st) = total st.
Proof.
  intros H. pose proof (run_update_raise preds target st H) as Hrun.
  unfold exec. unfold run in Hrun. rewrite Hrun. auto.
Qed.

Lemma update_shape_mismatch_witness :
  run (update (tensor1 [F32.of_dyadic 1 0; F32.of_dyadic 2 0]) (tensor1 [F32.of_dyadic 1 0]))
      {| sum_abs_error := F32.of_dyadic 3 0; total := 7 |}
  = (Raise (AssertionError shape_msg),
     {| sum_abs_error := F32.of_dyadic 3 0; total := 7 |}).
Proof.
  apply (update_shape_mismatch
           {| sum_abs_error := F32.of_dyadic 3 0; total := 7 |}
           (tensor1 [F32.of_dyadic 1 0; F32.of_dyadic 2 0])
           (tensor1 [F32.of_dyadic 1 0])).
  simpl. discriminate.
Defined.

(** ** compute on an empty accumulator *)



(** ** compute is a read *)

(** C6: [compute()] does not change the state, and called any number of
    times in a row it returns the same value each time. *)
Theorem compute_idempotent_read (st : MetricState) :
  exists v : F32.t,
    run compute st = (Ok v, st) /\
    forall n : nat, run (compute_times n) st = (Ok (repeat v n), st).
Proof.
  exists (F32.div (sum_abs_error st) (F32.of_int (total st))).
  split; [reflexivity|].
  induction n as [|n IH]; [reflexivity|].
  unfold run in *. simpl. unfold bind at 1. simpl.
  unfold bind at 1. rewrite IH. reflexivity.
Qed.

(** ** The docstring example *)

(** C7: on a fresh accumulator, after
    [update(preds=[2.5, 0.0, 2.0, 8.0], target=[3.0, -0.5, 2.0, 7.0])],
    [compute()] returns exactly [0.5] (the float32 [2^23 * 2^-24]). *)
Theorem docstring_example :
  eval (update doc_preds doc_target ;; compute) init = Ok (F32.of_dyadic 1 (-1))
  /\ F32.of_dyadic 1 (-1) = S754_finite false 8388608 (-24).
Proof. split; vm_compute; reflexivity. Qed.

(** ** Empty batches *)

(** C8: an [update] with zero-element tensors of one shape adds [0.0] to
    [sum_abs_error] and [0] to [total] and so leaves the state as it is;
    in particular an empty accumulator keeps [total == 0]. *)
Theorem update_empty_batch (st : MetricState) (preds target : Tensor) :
  reachable st ->
  wf_tensor target ->
  shape preds = shape target ->
  numel target = 0 ->
  batch_error preds target = F32.zero
  /\ run (update preds target) st = (Ok tt, st)
  /\ (total st = 0 -> total (exec (update preds target) st) = 0).
Proof.
  intros Hreach (Hlen & _ & _) Hshape Hzero.
  assert (Hdata : data target = []).
  { destruct (data target); [reflexivity|]. simpl length in Hlen. lia. }
  assert (Hbatch : batch_error preds target = F32.zero).
  { unfold batch_error, torch_sum, torch_abs, torch_sub; simpl.
    rewrite Hdata. destruct (data preds); reflexivity. }
  assert (Hrun : run (update preds target) st = (Ok tt, st)).
  { rewrite (run_update_ok _ _ _ Hshape), Hbatch, Hzero.
    destruct (reachable_inv st Hreach) as [Hs Ht].
    rewrite add_zero_r by assumption.
    unfold Int64.add. rewrite Z.add_0_r, wrap_id by assumption.
    destruct st; reflexivity. }
  split; [assumption|]. split; [assumption|].
  intros H0. unfold exec. unfold run in Hrun. rewrite Hrun. assumption.
Qed.

Lemma update_empty_batch_witness :
  run (update (tensor1 []) (tensor1 [])) init = (Ok tt, init).
Proof.
  apply (update_empty_batch init (tensor1 []) (tensor1 [])).
  - apply reach_init.
  - wf_literal.
  - reflexivity.
  - reflexivity.
Defined.

(** ** Non-negativity *)







(** ** Order of updates *)

Lemma add_comm (x y : F32.t) : F32.add x y = F32.add y x.
Proof.
  destruct x as [[]|[]| |sx mx ex], y as [[]|[]| |sy my ey]; try reflexivity.
  unfold F32.add, SFadd.
  rewrite (Z.min_comm ey ex). f_equal. apply Z.add_comm.
Qed.

Lemma int64_add_swap (a b c : Z) :
  Int64.add (Int64.add a b) c = Int64.add (Int64.add a c) b.
Proof.
  unfold Int64.add. rewrite !wrap_add_wrap_l. f_equal. lia.
Qed.

Lemma exec_two_updates (p1 t1 p2 t2 : Tensor) (st : MetricState) :
  shape p1 = shape t1 -> shape p2 = shape t2 ->
  exec (update p1 t1 ;; update p2 t2) st =
  {| sum_abs_error :=
       F32.add (F32.add (sum_abs_error st) (batch_error p1 t1)) (batch_error p2 t2);
     total := Int64.add (Int64.add (total st) (numel t1)) (numel t2) |}.
Proof.
  intros H1 H2. unfold exec, bind.
  pose proof (run_update_ok p1 t1 st H1) as R1. unfold run in R1. rewrite R1.
  pose proof (fun s => run_update_ok p2 t2 s H2) as R2. unfold run in R2. rewrite R2.
  reflexivity.
Qed.

Lemma eval_two_updates (p1 t1 p2 t2 : Tensor) (st : MetricState) :
  shape p1 = shape t1 -> shape p2 = shape t2 ->
  fst ((update p1 t1 ;; update p2 t2) st) = Ok tt.
Proof.
  intros H1 H2. unfold bind.
  pose proof (run_update_ok p1 t1 st H1) as R1. unfold run in R1. rewrite R1.
  pose proof (fun s => run_update_ok p2 t2 s H2) as R2. unfold run in R2. rewrite R2.
  reflexivity.
Qed.

Lemma eval_then_compute (c : M unit) (st : MetricState) :
  fst (c st) = Ok tt ->
  eval (c ;; compute) st =
  Ok (F32.div (sum_abs_error (exec c st)) (F32.of_int (total (exec c st)))).
Proof.
  unfold eval, exec, bind. destruct (c st) as [[[]|e] st']; simpl; [reflexivity|discriminate].
Qed.

(** C9, as stated, fails: on the accumulator that has seen
    [update([16777216.0], [0.0])], the batches [([1.0], [0.0])] and
    [([2.0], [0.0])] give [sum_abs_error = 16777218.0] in one order and
    [16777220.0] in the other, and [compute()] differs too. *)
Lemma update_order_counterexample :
  let st := exec (update big_preds big_target) init in
  reachable st
  /\ sum_abs_error (exec (update one_preds zero_target ;; update two_preds zero_target) st)
     = F32.of_dyadic 16777218 0
  /\ sum_abs_error (exec (update two_preds zero_target ;; update one_preds zero_target) st)
     = F32.of_dyadic 16777220 0
  /\ exec (update one_preds zero_target ;; update two_preds zero_target) st
     <> exec (update two_preds zero_target ;; update one_preds zero_target) st
  /\ eval (update one_preds zero_target ;; update two_preds zero_target ;; compute) st
     <> eval (update two_preds zero_target ;; update one_preds zero_target ;; compute) st.
Proof.
  cbv zeta. split.
  - apply (reach_update init big_preds big_target); [apply reach_init | | | reflexivity];
      wf_literal.
  - repeat split; vm_compute; try reflexivity; discriminate.
Qed.

(** C9, amended: for float32 tensors, the two orders always leave the same
    [total]; on a fresh (or freshly reset) accumulator they leave the same
    state and hence the same [compute()] result. *)
Theorem updates_commute_on_fresh (p1 t1 p2 t2 : Tensor) :
  shape p1 = shape t1 -> shape p2 = shape t2 ->
  (forall st, total (exec (update p1 t1 ;; update p2 t2) st)
              = total (exec (update p2 t2 ;; update p1 t1) st))
  /\ exec (update p1 t1 ;; update p2 t2) init = exec (update p2 t2 ;; update p1 t1) init
  /\ eval ((update p1 t1 ;; update p2 t2) ;; compute) init
     = eval ((update p2 t2 ;; update p1 t1) ;; compute) init
  /\ (forall st, exec (reset ;; update p1 t1 ;; update p2 t2) st
                 = exec (reset ;; update p2 t2 ;; update p1 t1) st).
Proof.
  intros H1 H2.
  assert (Hinit : exec (update p1 t1 ;; update p2 t2) init
                  = exec (update p2 t2 ;; update p1 t1) init).
  { rewrite !exec_two_updates by assumption. cbn [sum_abs_error total init].
    rewrite !add_zero_l by apply batch_error_sign_clear.
    rewrite add_comm, int64_add_swap. reflexivity. }
  split; [|split; [|split]].
  - intros st. rewrite !exec_two_updates by assumption. cbn [total].
    apply int64_add_swap.
  - exact Hinit.
  - rewrite !eval_then_compute by (apply eval_two_updates; assumption).
    rewrite Hinit. reflexivity.
  - intros st. exact Hinit.
Qed.

Lemma updates_commute_on_fresh_witness :
  exec (update one_preds zero_target ;; update ones_preds ones_target) init
  = exec (update ones_preds ones_target ;; update one_preds zero_target) init.
Proof.
  apply (updates_commute_on_fresh one_preds zero_target ones_preds ones_target);
    reflexivity.
Defined.

(** ** Two updates against one update on the concatenation *)





(** The two ways of cutting [[16777216.0, 1.0, 1.0]] into two batches
    leave different sums, although both are followed by the same
    concatenation: no accumulation order of [torch.sum] on the
    concatenation agrees with both. *)
Lemma additivity_splits_disagree :
  sum_abs_error (exec (update big_preds big_target ;; update ones_preds ones_target) init)
  = F32.of_dyadic 16777218 0
  /\ sum_abs_error (exec (update (tensor1 [two24; one]) (tensor1 [F32.zero; F32.zero]) ;;
                          update one_preds zero_target) init)
     = F32.of_dyadic 16777216 0.
Proof. split; vm_compute; reflexivity. Qed.

(** ** float32 results are canonical *)

Lemma finite_or_inf_valid (s : bool) (m : positive) (e : Z) :
  canonical_mantissa F32.prec F32.emax m e = true ->
  F32.valid (F32.finite_or_inf s m e) = true.
Proof.
  intros H. unfold F32.finite_or_inf. destruct (Z.leb_spec e 104) as [L|L]; [|reflexivity].
  unfold F32.valid, valid_binary, bounded. rewrite H. apply Z.leb_le. exact L.
Qed.

Lemma binary_normalize_valid (m e : Z) (szero : bool) :
  -149 <= e -> F32.valid (binary_normalize F32.prec F32.emax m e szero) = true.
Proof.
  intros He. destruct m as [|p|p]; cbn [binary_normalize]; [reflexivity| |].
  - destruct (binary_round_spec false p e He) as (m' & e' & -> & Hc & _).
    apply finite_or_inf_valid; assumption.
  - destruct (binary_round_spec true p e He) as (m' & e' & -> & Hc & _).
    apply finite_or_inf_valid; assumption.
Qed.

Lemma valid_finite_inv (s : bool) (m : positive) (e : Z) :
  F32.valid (S754_finite s m e) = true ->
  canonical_mantissa F32.prec F32.emax m e = true /\ -149 <= e.
Proof.
  unfold F32.valid, valid_binary, bounded. intros H.
  apply andb_true_iff in H as [H _]. split; [assumption|].
  apply canonical_bounds in H. lia.
Qed.

Lemma add_valid (x y : F32.t) :
  F32.valid x = true -> F32.valid y = true -> F32.valid (F32.add x y) = true.
Proof.
  destruct x as [[]|[]| |sx mx ex], y as [[]|[]| |sy my ey]; intros Hx Hy;
    try reflexivity; try assumption.
  unfold F32.add, SFadd. apply binary_normalize_valid.
  apply valid_finite_inv in Hx as [_ Hx]. apply valid_finite_inv in Hy as [_ Hy]. lia.
Qed.

Lemma sub_valid (x y : F32.t) :
  F32.valid x = true -> F32.valid y = true -> F32.valid (F32.sub x y) = true.
Proof.
  destruct x as [[]|[]| |sx mx ex], y as [[]|[]| |sy my ey]; intros Hx Hy;
    try reflexivity; try assumption.
  unfold F32.sub, SFsub. apply binary_normalize_valid.
  apply valid_finite_inv in Hx as [_ Hx]. apply valid_finite_inv in Hy as [_ Hy]. lia.
Qed.

Lemma abs_valid (x : F32.t) : F32.valid x = true -> F32.valid (F32.abs x) = true.
Proof. destruct x; intros H; try reflexivity. exact H. Qed.


Lemma zip_sub_valid (a b : list F32.t) :
  forallb F32.valid a = true -> forallb F32.valid b = true ->
  forallb F32.valid (map F32.abs (zip_with F32.sub a b)) = true.
Proof.
  revert b; induction a as [|x a IH]; intros [|y b]; simpl; intros Ha Hb;
    try reflexivity.
  apply andb_true_iff in Ha as [Hx Ha]. apply andb_true_iff in Hb as [Hy Hb].
  rewrite abs_valid by (apply sub_valid; assumption). apply IH; assumption.
Qed.



(** ** float32 addition of non-negative numbers does not decrease *)

Lemma finite_leb (mx : positive) (ex : Z) (m' : positive) (e' : Z) :
  canonical_mantissa F32.prec F32.emax mx ex = true ->
  canonical_mantissa F32.prec F32.emax m' e' = true ->
  Zpos mx * 2 ^ (ex + 149) < (Zpos m' + 1) * 2 ^ (e' + 149) ->
  F32.leb (S754_finite false mx ex) (S754_finite false m' e') = true.
Proof.
  intros Hx Hr Hlt.
  apply canonical_bounds in Hx as (Hex & Hmx & Hnx).
  apply canonical_bounds in Hr as (He' & Hm' & Hn').
  assert (Hpos : 0 < 2 ^ (e' + 149)) by (apply Z.pow_pos_nonneg; lia).
  assert (Horder : ex < e' \/ (ex = e' /\ Zpos mx <= Zpos m')).
  { destruct (Z.lt_trichotomy ex e') as [L|[E|G]]; [left; assumption| |].
    - right. split; [assumption|]. subst e'. nia.
    - exfalso. specialize (Hnx ltac:(lia)).
      assert (Hstep : 2 * 2 ^ (e' + 149) <= 2 ^ (ex + 149)).
      { replace (2 * 2 ^ (e' + 149)) with (2 ^ (e' + 149 + 1))
          by (rewrite Z.pow_add_r by lia; change (2 ^ 1) with 2; lia).
        apply Z.pow_le_mono_r; lia. }
      change (2 ^ 23) with 8388608 in Hnx. change (2 ^ 24) with 16777216 in Hm'.
      nia. }
  unfold F32.leb, SFleb, SFcompare.
  destruct Horder as [L|[E L]].
  - apply Z.compare_lt_iff in L. rewrite L. reflexivity.
  - subst e'. rewrite Z.compare_refl.
    change (Pos.compare_cont Eq mx m') with (Pos.compare mx m').
    destruct (Pos.compare_spec mx m') as [C|C|C]; try reflexivity. lia.
Qed.



Lemma add_not_nan (x s : F32.t) :
  F32.valid x = true -> F32.valid s = true ->
  F32.sign_clear x = true -> F32.sign_clear s = true ->
  F32.is_nan x = false -> F32.is_nan s = false ->
  F32.is_nan (F32.add x s) = false.
Proof.
  intros Vx Vs Sx Ss Nx Ns.
  destruct x as [[]|[]| |[] mx ex]; try discriminate;
    destruct s as [[]|[]| |[] ms es]; try discriminate; try reflexivity.
  apply valid_finite_inv in Vx as [_ Ex]. apply valid_finite_inv in Vs as [_ Es].
  unfold F32.add, SFadd. cbn [cond_Zopp Z.add binary_normalize].
  destruct (binary_round_spec false
              (fst (shl_align mx ex (Z.min ex es)) + fst (shl_align ms es (Z.min ex es)))
              (Z.min ex es) ltac:(lia))
    as (m' & e' & -> & _ & _).
  unfold F32.finite_or_inf. destruct (e' <=? 104); reflexivity.
Qed.

(** ** NaN comes from the inputs only *)

Lemma binary_normalize_not_nan (m e : Z) (szero : bool) :
  -149 <= e -> F32.is_nan (binary_normalize F32.prec F32.emax m e szero) = false.
Proof.
  intros He. destruct m as [|p|p]; cbn [binary_normalize]; [reflexivity| |].
  - destruct (binary_round_spec false p e He) as (m' & e' & -> & _ & _).
    unfold F32.finite_or_inf. destruct (e' <=? 104); reflexivity.
  - destruct (binary_round_spec true p e He) as (m' & e' & -> & _ & _).
    unfold F32.finite_or_inf. destruct (e' <=? 104); reflexivity.
Qed.

Lemma sub_not_nan (x y : F32.t) :
  F32.valid x = true -> F32.valid y = true ->
  F32.is_finite x = true -> F32.is_finite y = true ->
  F32.is_nan (F32.sub x y) = false.
Proof.
  destruct x as [[]|[]| |sx mx ex], y as [[]|[]| |sy my ey]; intros Vx Vy Fx Fy;
    try discriminate; try reflexivity.
  unfold F32.sub, SFsub. apply binary_normalize_not_nan.
  apply valid_finite_inv in Vx as [_ Hx]. apply valid_finite_inv in Vy as [_ Hy]. lia.
Qed.

Lemma abs_not_nan (x : F32.t) : F32.is_nan x = false -> F32.is_nan (F32.abs x) = false.
Proof. destruct x; intros H; try reflexivity. discriminate. Qed.

Lemma fold_add_not_nan (l : list F32.t) (acc : F32.t) :
  F32.valid acc = true -> F32.sign_clear acc = true -> F32.is_nan acc = false ->
  forallb F32.valid l = true -> forallb F32.sign_clear l = true ->
  forallb (fun x => negb (F32.is_nan x)) l = true ->
  F32.is_nan (fold_left F32.add l acc) = false.
Proof.
  revert acc; induction l as [|x l IH]; simpl; intros acc Va Sa Na Vl Sl Nl; [assumption|].
  apply andb_true_iff in Vl as [Vx Vl]. apply andb_true_iff in Sl as [Sx Sl].
  apply andb_true_iff in Nl as [Nx Nl]. apply negb_true_iff in Nx.
  apply IH; try assumption.
  - apply add_valid; assumption.
  - apply add_sign_clear; assumption.
  - apply add_not_nan; assumption.
Qed.

Lemma zip_sub_not_nan (a b : list F32.t) :
  forallb F32.valid a = true -> forallb F32.valid b = true ->
  forallb F32.is_finite a = true -> forallb F32.is_finite b = true ->
  forallb (fun x => negb (F32.is_nan x)) (map F32.abs (zip_with F32.sub a b)) = true.
Proof.
  revert b; induction a as [|x a IH]; intros [|y b]; simpl; intros Va Vb Fa Fb;
    try reflexivity.
  apply andb_true_iff in Va as [Vx Va]. apply andb_true_iff in Vb as [Vy Vb].
  apply andb_true_iff in Fa as [Fx Fa]. apply andb_true_iff in Fb as [Fy Fb].
  rewrite abs_not_nan by (apply sub_not_nan; assumption). apply IH; assumption.
Qed.

(** With no NaN and no infinity among the elements of [preds] and
    [target], the abs-error sum of the batch is not NaN. *)
Lemma batch_error_not_nan (preds target : Tensor) :
  wf_tensor preds -> wf_tensor target ->
  forallb F32.is_finite (data preds) = true ->
  forallb F32.is_finite (data target) = true ->
  F32.is_nan (batch_error preds target) = false.
Proof.
  intros (_ & _ & Vp) (_ & _ & Vt) Fp Ft.
  unfold batch_error, torch_sum, torch_abs, torch_sub; simpl.
  apply fold_add_not_nan; try reflexivity.
  - apply zip_sub_valid; assumption.
  - apply forallb_sign_clear_abs.
  - apply zip_sub_not_nan; assumption.
Qed.

(** ** Monotonicity *)




(** * Further properties of [update] and [compute] *)

(** ** The order of the two arguments *)

Lemma binary_round_aux_abs (s s' : bool) (m e : Z) (l : location) :
  F32.abs (binary_round_aux F32.prec F32.emax s m e l)
  = F32.abs (binary_round_aux F32.prec F32.emax s' m e l).
Proof.
  unfold binary_round_aux.
  destruct (shr_fexp _ _ m e l) as [mrs' e'].
  destruct (shr_fexp _ _ _ e' loc_Exact) as [mrs'' e''].
  destruct (shr_m mrs'') as [|p|p]; try reflexivity.
  destruct (Z.leb e'' _); reflexivity.
Qed.

Lemma binary_normalize_abs_opp (m e : Z) :
  F32.abs (binary_normalize F32.prec F32.emax (- m) e false)
  = F32.abs (binary_normalize F32.prec F32.emax m e false).
Proof.
  destruct m as [|p|p]; cbn [Z.opp binary_normalize]; [reflexivity| |];
    unfold binary_round; destruct (shl_align _ _ _) as [mz ez];
    apply binary_round_aux_abs.
Qed.

(** [|x - y| = |y - x|] holds exactly in float32. *)
Lemma abs_sub_comm (x y : F32.t) : F32.abs (F32.sub x y) = F32.abs (F32.sub y x).
Proof.
  destruct x as [[]|[]| |sx mx ex], y as [[]|[]| |sy my ey]; try reflexivity.
  unfold F32.sub, SFsub. rewrite (Z.min_comm ey ex).
  rewrite <- binary_normalize_abs_opp. f_equal. f_equal. lia.
Qed.

Lemma zip_abs_sub_comm (a b : list F32.t) :
  map F32.abs (zip_with F32.sub a b) = map F32.abs (zip_with F32.sub b a).
Proof.
  revert b; induction a as [|x a IH]; intros [|y b]; simpl; try reflexivity.
  rewrite abs_sub_comm, IH. reflexivity.
Qed.

Lemma batch_error_comm (preds target : Tensor) :
  batch_error preds target = batch_error target preds.
Proof.
  unfold batch_error, torch_sum, torch_abs, torch_sub; simpl.
  rewrite zip_abs_sub_comm. reflexivity.
Qed.

(** X1: [update(preds, target)] and [update(target, preds)] do the same:
    the same outcome (normal return, or the same AssertionError) and the
    same state afterwards, in every state and for all tensors. *)
Theorem update_symmetric (st : MetricState) (preds target : Tensor) :
  run (update preds target) st = run (update target preds) st.
Proof.
  destruct (shape_eqb (shape preds) (shape target)) eqn:E.
  - apply shape_eqb_eq in E.
    rewrite (run_update_ok preds target st E), (run_update_ok target preds st (eq_sym E)).
    rewrite batch_error_comm. unfold numel. rewrite E. reflexivity.
  - assert (H : shape preds <> shape target).
    { intros H. apply shape_eqb_eq in H. congruence. }
    rewrite (run_update_raise preds target st H).
    rewrite (run_update_raise target preds st); [reflexivity|].
    intros H'. apply H. symmetry. exact H'.
Qed.

(** ** Sequences of updates *)

Lemma run_update_all_ok (batches : list (Tensor * Tensor)) (st : MetricState) :
  same_shapes batches -> fst (update_all batches st) = Ok tt.
Proof.
  revert st; induction batches as [|[p t] rest IH]; intros st H; [reflexivity|].
  inversion H as [|b bs Hb Hrest]; subst. cbn [fst snd] in Hb.
  cbn [update_all]. unfold bind.
  pose proof (run_update_ok p t st Hb) as R. unfold run in R. rewrite R.
  apply IH. exact Hrest.
Qed.

Lemma exec_update_all_cons (p t : Tensor) (rest : list (Tensor * Tensor)) (st : MetricState) :
  shape p = shape t ->
  exec (update_all ((p, t) :: rest)) st
  = exec (update_all rest)
      {| sum_abs_error := F32.add (sum_abs_error st) (batch_error p t);
         total := Int64.add (total st) (numel t) |}.
Proof.
  intros H. unfold exec. cbn [update_all]. unfold bind.
  pose proof (run_update_ok p t st H) as R. unfold run in R. rewrite R. reflexivity.
Qed.

Lemma count_elements_nonneg (batches : list (Tensor * Tensor)) :
  0 <= count_elements batches.
Proof.
  induction batches as [|[p t] rest IH]; simpl; [lia|].
  pose proof (numel_nonneg t). lia.
Qed.

(** X2: from a state whose [total] is an int64, a sequence of equal-shape
    updates returns normally and leaves [total] grown by the number of
    target elements of all its batches, modulo [2^64]: by exactly that
    number when the sum does not exceed the largest int64. *)
Theorem total_counts_elements (st : MetricState) (batches : list (Tensor * Tensor)) :
  same_shapes batches ->
  Int64.in_range (total st) ->
  eval (update_all batches) st = Ok tt
  /\ total (exec (update_all batches) st)
     = Int64.wrap (total st + count_elements batches)
  /\ (total st + count_elements batches <= Int64.max_int ->
      total (exec (update_all batches) st) = total st + count_elements batches).
Proof.
  intros Hshapes Hrange.
  assert (Hwrap : total (exec (update_all batches) st)
                  = Int64.wrap (total st + count_elements batches)).
  { revert st Hrange; induction Hshapes as [|[p t] rest Hb _ IH]; intros st Hrange.
    - unfold exec; simpl. rewrite Z.add_0_r, wrap_id by assumption. reflexivity.
    - cbn [fst snd] in Hb. rewrite (exec_update_all_cons p t rest st Hb), IH.
      + cbn [total count_elements]. unfold Int64.add. rewrite wrap_add_wrap_l.
        f_equal. lia.
      + cbn [total]. apply wrap_in_range. }
  split; [apply run_update_all_ok; assumption|]. split; [exact Hwrap|].
  intros Hmax. rewrite Hwrap. apply wrap_id.
  pose proof (count_elements_nonneg batches).
  unfold Int64.in_range, Int64.min_int, Int64.max_int in *. lia.
Qed.

Lemma total_counts_elements_witness :
  total (exec (update_all [(doc_preds, doc_target); (ones_preds, ones_target);
                           (one_preds, zero_target)]) init) = 0 + 7.
Proof.
  apply (total_counts_elements init
           [(doc_preds, doc_target); (ones_preds, ones_target); (one_preds, zero_target)]).
  - repeat constructor.
  - unfold Int64.in_range, Int64.min_int, Int64.max_int. simpl. lia.
  - vm_compute. discriminate.
Defined.

(** ** NaN, once in, stays *)

Lemma add_nan_l (x : F32.t) : F32.add F32.nan x = F32.nan.
Proof. reflexivity. Qed.

Lemma add_nan_r (x : F32.t) : F32.add x F32.nan = F32.nan.
Proof. destruct x as [[]|[]| |[] m e]; reflexivity. Qed.

Lemma fold_add_nan (l : list F32.t) : fold_left F32.add l F32.nan = F32.nan.
Proof. induction l as [|x l IH]; [reflexivity|]. cbn [fold_left]. rewrite add_nan_l. exact IH. Qed.

Lemma fold_add_nan_in (l : list F32.t) (acc : F32.t) :
  In F32.nan l -> fold_left F32.add l acc = F32.nan.
Proof.
  revert acc; induction l as [|x l IH]; intros acc H; [destruct H|].
  cbn [fold_left]. destruct H as [H|H].
  - subst x. rewrite add_nan_r. apply fold_add_nan.
  - apply IH. exact H.
Qed.

Lemma nan_pair_sub (x y : F32.t) : nan_pair x y -> F32.abs (F32.sub x y) = F32.nan.
Proof.
  intros [-> | [-> | (s & -> & ->)]].
  - reflexivity.
  - destruct x as [[]|[]| |[] m e]; reflexivity.
  - destruct s; reflexivity.
Qed.

Lemma zip_with_nth_error {A B C : Type} (f : A -> B -> C) (a : list A) (b : list B)
      (i : nat) (x : A) (y : B) :
  nth_error a i = Some x -> nth_error b i = Some y ->
  nth_error (zip_with f a b) i = Some (f x y).
Proof.
  revert a b; induction i as [|i IH]; intros [|x' a] [|y' b]; simpl; try discriminate.
  - intros [= ->] [= ->]. reflexivity.
  - apply IH.
Qed.

Lemma batch_error_nan (preds target : Tensor) (i : nat) (x y : F32.t) :
  nth_error (data preds) i = Some x -> nth_error (data target) i = Some y ->
  nan_pair x y ->
  batch_error preds target = F32.nan.
Proof.
  intros Hx Hy Hnan. unfold batch_error, torch_sum, torch_abs, torch_sub; simpl.
  apply fold_add_nan_in. rewrite <- (nan_pair_sub x y Hnan).
  apply in_map. eapply nth_error_In. apply zip_with_nth_error; eassumption.
Qed.

Lemma update_all_keeps_nan (batches : list (Tensor * Tensor)) (st : MetricState) :
  same_shapes batches -> sum_abs_error st = F32.nan ->
  sum_abs_error (exec (update_all batches) st) = F32.nan.
Proof.
  intros Hshapes. revert st; induction Hshapes as [|[p t] rest Hb _ IH]; intros st Hnan.
  - exact Hnan.
  - cbn [fst snd] in Hb. rewrite (exec_update_all_cons p t rest st Hb).
    apply IH. cbn [sum_abs_error]. rewrite Hnan. apply add_nan_l.
Qed.

(** X3: one poisoned index is enough.  When at some index [preds] or
    [target] holds a NaN, or both hold infinities of one sign, the update
    succeeds and leaves [sum_abs_error] NaN whatever it was; it stays NaN
    through every later equal-shape update, and [compute()] returns NaN
    whatever [total] is. *)
Theorem nan_poisons (st : MetricState) (preds target : Tensor) (i : nat) (x y : F32.t)
        (later : list (Tensor * Tensor)) :
  shape preds = shape target ->
  nth_error (data preds) i = Some x -> nth_error (data target) i = Some y ->
  nan_pair x y ->
  same_shapes later ->
  sum_abs_error (exec (update preds target) st) = F32.nan
  /\ sum_abs_error (exec (update preds target ;; update_all later) st) = F32.nan
  /\ eval ((update preds target ;; update_all later) ;; compute) st = Ok F32.nan.
Proof.
  intros Hshape Hx Hy Hnan Hlater.
  pose proof (run_update_ok preds target st Hshape) as R. unfold run in R.
  rewrite (batch_error_nan preds target i x y Hx Hy Hnan), add_nan_r in R.
  assert (Hone : sum_abs_error (exec (update preds target) st) = F32.nan).
  { unfold exec. rewrite R. reflexivity. }
  assert (Hall : sum_abs_error (exec (update preds target ;; update_all later) st)
                 = F32.nan).
  { change (exec (update preds target ;; update_all later) st)
      with (exec (update_all ((preds, target) :: later)) st).
    rewrite (exec_update_all_cons preds target later st Hshape).
    apply update_all_keeps_nan; [assumption|]. cbn [sum_abs_error].
    rewrite (batch_error_nan preds target i x y Hx Hy Hnan). apply add_nan_r. }
  split; [exact Hone|]. split; [exact Hall|].
  rewrite eval_then_compute.
  - rewrite Hall. reflexivity.
  - change (update preds target ;; update_all later)
      with (update_all ((preds, target) :: later)).
    apply run_update_all_ok. constructor; assumption.
Qed.

Lemma nan_poisons_witness :
  eval ((update (tensor1 [one; F32.inf]) (tensor1 [two; F32.inf]) ;;
         update_all [(doc_preds, doc_target)]) ;; compute)
       init = Ok F32.nan.
Proof.
  apply (nan_poisons init (tensor1 [one; F32.inf]) (tensor1 [two; F32.inf])
           1%nat F32.inf F32.inf [(doc_preds, doc_target)]).
  - reflexivity.
  - reflexivity.
  - reflexivity.
  - right; right. exists false. split; reflexivity.
  - repeat constructor.
Defined.

(** ** Predictions that equal the targets *)

Lemma sub_self (x : F32.t) : F32.is_finite x = true -> F32.sub x x = F32.zero.
Proof.
  destruct x as [[]|[]| |s m e]; intros H; try discriminate; try reflexivity.
  unfold F32.sub, SFsub. rewrite Z.sub_diag. reflexivity.
Qed.

Lemma fold_add_zeros (l : list F32.t) :
  Forall (fun x => x = F32.zero) l -> fold_left F32.add l F32.zero = F32.zero.
Proof.
  induction 1 as [|x l Hx _ IH]; [reflexivity|]. subst x. exact IH.
Qed.

Lemma zip_sub_self (l : list F32.t) :
  forallb F32.is_finite l = true ->
  Forall (fun x => x = F32.zero) (map F32.abs (zip_with F32.sub l l)).
Proof.
  induction l as [|x l IH]; simpl; intros H; constructor.
  - apply andb_true_iff in H as [H _]. rewrite (sub_self x H). reflexivity.
  - apply andb_true_iff in H as [_ H]. apply IH. exact H.
Qed.

Lemma batch_error_self (x : Tensor) :
  all_finite x = true -> batch_error x x = F32.zero.
Proof.
  intros H. unfold batch_error, torch_sum, torch_abs, torch_sub; simpl.
  apply fold_add_zeros, zip_sub_self. exact H.
Qed.

Lemma of_int_pos_cases (z : Z) :
  0 < z ->
  exists m e, F32.of_int z = S754_finite false m e \/ F32.of_int z = S754_infinity false.
Proof.
  destruct z as [|p|p]; try lia. intros _.
  unfold F32.of_int, F32.of_dyadic, binary_normalize.
  destruct (binary_round_spec false p 0 ltac:(lia)) as (m & e & -> & _ & _).
  exists m, e. unfold F32.finite_or_inf. destruct (e <=? 104); auto.
Qed.

(** X4: predictions that equal their targets, all finite, add exactly
    [0.0]: in every reachable state such an update leaves [sum_abs_error]
    as it is and only counts the elements, and on a fresh accumulator a
    non-empty batch of them gives [compute() = 0.0]. *)
Theorem perfect_predictions (st : MetricState) (x : Tensor) :
  reachable st ->
  wf_tensor x ->
  all_finite x = true ->
  run (update x x) st
  = (Ok tt, {| sum_abs_error := sum_abs_error st;
               total := Int64.add (total st) (numel x) |})
  /\ (0 < numel x -> eval (update x x ;; compute) init = Ok F32.zero).
Proof.
  intros Hreach (_ & Hmax & _) Hfin.
  pose proof (fun s => run_update_ok x x s eq_refl) as R.
  rewrite (batch_error_self x Hfin) in R. split.
  - rewrite R. destruct (reachable_inv st Hreach) as [Hs _].
    rewrite add_zero_r by assumption. reflexivity.
  - intros Hpos. unfold eval, bind. specialize (R init). unfold run in R.
    rewrite R, compute_eq. cbn [fst sum_abs_error total init].
    unfold Int64.add. rewrite Z.add_0_l, wrap_id
      by (unfold Int64.in_range, Int64.min_int, Int64.max_int in *; lia).
    destruct (of_int_pos_cases (numel x) Hpos) as (m & e & [-> | ->]); reflexivity.
Qed.

Lemma perfect_predictions_witness :
  eval (update doc_target doc_target ;; compute) init = Ok F32.zero.
Proof.
  apply (perfect_predictions init doc_target).
  - apply reach_init.
  - wf_literal.
  - reflexivity.
  - reflexivity.
Defined.

(** ** The mean of one element *)

Lemma div_eucl_eq (a b : Z) : Z.div_eucl a b = (a / b, a mod b).
Proof. unfold Z.div, Z.modulo. destruct (Z.div_eucl a b); reflexivity. Qed.

(** Division by [1.0] is exact. *)
Lemma div_one (x : F32.t) : F32.valid x = true -> F32.div x (F32.of_int 1) = x.
Proof.
  change (F32.of_int 1) with (S754_finite false 8388608 (-23)).
  destruct x as [[]|[]| |s m e]; intros V; try reflexivity.
  pose proof V as V'. unfold F32.valid, valid_binary, bounded in V'.
  apply andb_true_iff in V' as [Hc Hmax]. apply Z.leb_le in Hmax.
  change (F32.emax - F32.prec) with 104 in Hmax.
  pose proof Hc as Hfexp. unfold canonical_mantissa in Hfexp. apply Z.eqb_eq in Hfexp.
  pose proof (canonical_bounds m e Hc) as (Hmin & _ & _).
  rewrite fexp_eq in Hfexp.
  unfold F32.div, SFdiv, SFdiv_core_binary. cbn [Zdigits2 digits2_pos Pos.succ xorb].
  rewrite fexp_eq. rewrite xorb_false_r.
  set (d := Zpos (digits2_pos m)) in *.
  destruct (Z.eq_dec e (-149)) as [He|He].
  - (* subnormal, or the least normal exponent *)
    subst e.
    replace (Z.min (Z.max (d + -149 - (24 + -23) - 24) (-149)) (-149 - -23)) with (-149) by lia.
    change (-149 - -23 - -149) with 23.
    rewrite div_eucl_eq, Z.shiftl_mul_pow2 by lia. change (2 ^ 23) with 8388608.
    rewrite Z.div_mul, Z.mod_mul by lia.
    change (new_location 8388608 0) with loc_Exact.
    rewrite binary_round_aux_exact by (rewrite fexp_eq; fold d; lia).
    reflexivity.
  - replace (Z.min (Z.max (d + e - (24 + -23) - 24) (-149)) (e - -23)) with (e - 1) by lia.
    replace (e - -23 - (e - 1)) with 24 by lia.
    rewrite div_eucl_eq, Z.shiftl_mul_pow2 by lia.
    replace (Zpos m * 2 ^ 24) with (Zpos m~0 * 8388608) by (change (2 ^ 24) with 16777216; lia).
    rewrite Z.div_mul, Z.mod_mul by lia.
    change (new_location 8388608 0) with loc_Exact.
    unfold binary_round_aux.
    assert (Hshr : shr_fexp F32.prec F32.emax (Zpos m~0) (e - 1) loc_Exact
                   = ({| shr_m := Zpos m; shr_r := false; shr_s := false |}, e)).
    { unfold shr_fexp. cbn [Zdigits2 digits2_pos]. rewrite Pos2Z.inj_succ. fold d.
      rewrite fexp_eq. replace (Z.max (Z.succ d + (e - 1) - 24) (-149) - (e - 1)) with 1 by lia.
      cbn [shr shr_record_of_loc iter_pos shr_1]. f_equal. lia. }
    rewrite Hshr. cbn [shr_m loc_of_shr_record round_nearest_even].
    rewrite shr_fexp_exact by (rewrite fexp_eq; fold d; lia).
    cbn [shr_m]. change (F32.emax - F32.prec) with 104.
    apply Z.leb_le in Hmax. rewrite Hmax. reflexivity.
Qed.

(** X5: the mean of a single element is its absolute error, exactly.  On a
    fresh accumulator, after one [update] with one-element float32 tensors
    of one shape (scalars included), [compute()] returns [abs(p - t)] for
    the elements [p] and [t], with no rounding from the division. *)
Theorem single_element_mean (preds target : Tensor) (p t : F32.t) :
  shape preds = shape target ->
  data preds = [p] -> data target = [t] ->
  numel target = 1 ->
  F32.valid p = true -> F32.valid t = true ->
  eval (update preds target ;; compute) init = Ok (F32.abs (F32.sub p t)).
Proof.
  intros Hshape Hp Ht Hone Vp Vt.
  unfold eval, bind.
  pose proof (run_update_ok preds target init Hshape) as R. unfold run in R.
  rewrite R, compute_eq. cbn [fst sum_abs_error total init].
  assert (Hbatch : batch_error preds target = F32.abs (F32.sub p t)).
  { unfold batch_error, torch_sum, torch_abs, torch_sub; simpl.
    rewrite Hp, Ht. cbn [zip_with map fold_left].
    apply add_zero_l, abs_sign_clear. }
  rewrite Hbatch, Hone, add_zero_l by apply abs_sign_clear.
  change (Int64.add 0 1) with 1.
  rewrite div_one; [reflexivity|].
  apply abs_valid, sub_valid; assumption.
Qed.

Lemma single_element_mean_witness :
  eval (update (mkTensor [] [F32.of_dyadic 5 (-1)]) (mkTensor [] [F32.of_dyadic (-3) 0]) ;;
        compute) init
  = Ok (F32.abs (F32.sub (F32.of_dyadic 5 (-1)) (F32.of_dyadic (-3) 0))).
Proof.
  apply (single_element_mean (mkTensor [] [F32.of_dyadic 5 (-1)])
           (mkTensor [] [F32.of_dyadic (-3) 0])); reflexivity.
Defined.

(** ** When [compute] is a number *)

(** The exponent of a rounded value exceeds the exponent of its format
    slot by at most one (a carry out of the rounded mantissa). *)
Lemma binary_round_exponent (s : bool) (M : positive) (e : Z) :
  -149 <= e ->
  exists m' e',
    binary_round F32.prec F32.emax s M e = F32.finite_or_inf s m' e' /\
    e' <= Z.max (Zpos (digits2_pos M) + e - 24) (-149) + 1.
Proof.
  intros He. pose proof (digits2_pos_bounds M) as [Dlo Dhi].
  set (d := Zpos (digits2_pos M)) in *.
  unfold binary_round. fold d. rewrite fexp_eq.
  destruct (Z.le_gt_cases d 24) as [Hd|Hd].
  - set (e1 := Z.max (d + e - 24) (-149)). assert (He1 : e1 <= e) by lia.
    assert (Hal : Zpos (fst (shl_align M e e1)) = Zpos M * 2 ^ (e - e1) /\
                  snd (shl_align M e e1) = e1).
    { destruct (shl_align_spec M e e1) as [Hlt Hge].
      destruct (Z.eq_dec e e1) as [E|E].
      - rewrite Hge by lia. cbn [fst snd]. rewrite E, Z.sub_diag. simpl. lia.
      - apply Hlt. lia. }
    destruct (shl_align M e e1) as [mz ez]. cbn [fst snd] in Hal.
    destruct Hal as [Hmz ->].
    pose proof (digits2_pos_shift M (e - e1) mz ltac:(lia) Hmz) as Hdz. fold d in Hdz.
    exists mz, e1. split; [|lia].
    apply binary_round_aux_exact. rewrite fexp_eq, Hdz. unfold e1. lia.
  - replace (Z.max (d + e - 24) (-149)) with (d + e - 24) by lia.
    set (e1 := d + e - 24).
    destruct (shl_align_spec M e e1) as [_ Hge]. rewrite Hge by (unfold e1; lia).
    unfold binary_round_aux.
    assert (Hshr : exists mrs,
      shr_fexp F32.prec F32.emax (Zpos M) e loc_Exact = (mrs, e1) /\
      shr_m mrs = Zpos M / 2 ^ (d - 24)).
    { unfold shr_fexp. cbn [Zdigits2]. fold d. rewrite fexp_eq.
      replace (Z.max (d + e - 24) (-149) - e) with (d - 24) by lia.
      destruct (d - 24) as [|n|n] eqn:En; try lia.
      unfold shr. eexists. split.
      - f_equal. unfold e1. lia.
      - rewrite iter_shr_1_m; cbn [shr_record_of_loc shr_m]; [reflexivity | lia]. }
    destruct Hshr as (mrs & -> & Hq).
    set (q := Zpos M / 2 ^ (d - 24)) in *.
    assert (Hpow : 0 < 2 ^ (d - 24)) by (apply Z.pow_pos_nonneg; lia).
    assert (Hq23 : 2 ^ 23 <= q).
    { apply Z.div_le_lower_bound; [assumption|].
      rewrite <- Z.pow_add_r by lia. replace (d - 24 + 23) with (d - 1) by lia. exact Dlo. }
    assert (Hq24 : q < 2 ^ 24).
    { apply Z.div_lt_upper_bound; [assumption|].
      rewrite <- Z.pow_add_r by lia. replace (d - 24 + 24) with d by lia. exact Dhi. }
    assert (Hslot : forall r, 2 ^ 23 <= Zpos r < 2 ^ 24 ->
      shr_fexp F32.prec F32.emax (Zpos r) e1 loc_Exact
      = ({| shr_m := Zpos r; shr_r := false; shr_s := false |}, e1)).
    { intros r Hr. apply shr_fexp_exact. rewrite fexp_eq.
      rewrite (digits2_pos_unique r 24) by (simpl in *; lia). unfold e1. lia. }
    destruct (round_nearest_even_cases (shr_m mrs) (loc_of_shr_record mrs)) as [Hr|Hr];
      rewrite Hr, Hq.
    + destruct q as [|r|r] eqn:Eq; try (simpl in Hq23; lia).
      rewrite Hslot by lia. cbn [shr_m]. exists r, e1. split; [reflexivity|lia].
    + destruct (Z.eq_dec (q + 1) (2 ^ 24)) as [Hcarry|Hcarry].
      * rewrite Hcarry. change (2 ^ 24) with (Zpos 16777216).
        unfold shr_fexp. cbn [Zdigits2 digits2_pos Pos.succ]. rewrite fexp_eq.
        replace (Z.max (25 + e1 - 24) (-149) - e1) with 1 by (unfold e1; lia).
        cbn [shr shr_record_of_loc iter_pos shr_1 shr_m].
        exists 8388608%positive, (e1 + 1). split; [reflexivity|lia].
      * destruct (q + 1) as [|r|r] eqn:Eq; try (simpl in Hq23; lia).
        rewrite Hslot by lia. cbn [shr_m]. exists r, e1. split; [reflexivity|lia].
Qed.

(** A positive int64 converts to a finite positive float32. *)
Lemma of_int_pos_finite (z : Z) :
  0 < z <= Int64.max_int ->
  exists m e, F32.of_int z = S754_finite false m e.
Proof.
  destruct z as [|p|p]; try lia. intros [_ Hmax].
  unfold F32.of_int, F32.of_dyadic, binary_normalize.
  destruct (binary_round_exponent false p 0 ltac:(lia)) as (m & e & -> & He).
  pose proof (digits2_pos_bounds p) as [Dlo _].
  assert (Hd : Zpos (digits2_pos p) <= 63).
  { destruct (Z.le_gt_cases (Zpos (digits2_pos p)) 63) as [L|G]; [assumption|].
    assert (2 ^ 63 <= 2 ^ (Zpos (digits2_pos p) - 1)) by (apply Z.pow_le_mono_r; lia).
    unfold Int64.max_int in Hmax. lia. }
  exists m, e. unfold F32.finite_or_inf.
  destruct (Z.leb_spec e 104); [reflexivity|lia].
Qed.

Lemma shr_m_of_loc (m : Z) (l : location) : shr_m (shr_record_of_loc m l) = m.
Proof. destruct l as [|[]]; reflexivity. Qed.

Lemma shr_fexp_nonneg (m e : Z) (l : location) :
  0 <= m -> 0 <= shr_m (fst (shr_fexp F32.prec F32.emax m e l)).
Proof.
  intros Hm. unfold shr_fexp, shr.
  destruct (fexp _ _ _ - e) as [|n|n]; cbn [fst]; rewrite ?shr_m_of_loc; try assumption.
  rewrite iter_shr_1_m by (rewrite shr_m_of_loc; assumption).
  rewrite shr_m_of_loc. apply Z.div_pos; [assumption|]. apply Z.pow_pos_nonneg; lia.
Qed.

Lemma binary_round_aux_not_nan (s : bool) (m e : Z) (l : location) :
  0 <= m -> F32.is_nan (binary_round_aux F32.prec F32.emax s m e l) = false.
Proof.
  intros Hm. unfold binary_round_aux.
  pose proof (shr_fexp_nonneg m e l Hm) as H1.
  destruct (shr_fexp _ _ m e l) as [mrs' e']. cbn [fst] in H1.
  assert (Hr : 0 <= round_nearest_even (shr_m mrs') (loc_of_shr_record mrs')).
  { destruct (round_nearest_even_cases (shr_m mrs') (loc_of_shr_record mrs')) as [-> | ->]; lia. }
  pose proof (shr_fexp_nonneg _ e' loc_Exact Hr) as H2.
  destruct (shr_fexp _ _ _ e' loc_Exact) as [mrs'' e'']. cbn [fst] in H2.
  destruct (shr_m mrs'') as [|p|p]; try reflexivity; [|lia].
  destruct (Z.leb e'' _); reflexivity.
Qed.

(** Dividing by a finite non-zero number makes no NaN of its own. *)
Lemma div_finite_nan (x : F32.t) (sy : bool) (my : positive) (ey : Z) :
  F32.is_nan (F32.div x (S754_finite sy my ey)) = F32.is_nan x.
Proof.
  destruct x as [sx|sx| |sx mx ex]; try reflexivity.
  unfold F32.div, SFdiv, SFdiv_core_binary.
  rewrite div_eucl_eq. cbn [F32.is_nan].
  apply binary_round_aux_not_nan. apply Z.div_pos; [|lia].
  destruct (_ - _ - _) as [|n|n]; try lia.
  apply Z.shiftl_nonneg. lia.
Qed.

(** X6: in every reachable state with [total > 0], [compute()] returns NaN
    exactly when [sum_abs_error] is NaN: the division itself never makes
    a NaN, because a positive int64 [total] converts to a finite non-zero
    float32. *)
Theorem compute_nan_iff (st : MetricState) :
  reachable st ->
  0 < total st ->
  exists v, eval compute st = Ok v /\ F32.is_nan v = F32.is_nan (sum_abs_error st).
Proof.
  intros Hreach Hpos. destruct (reachable_inv st Hreach) as [_ Hrange].
  eexists. split; [reflexivity|].
  destruct (of_int_pos_finite (total st)) as (m & e & ->).
  - unfold Int64.in_range in Hrange. lia.
  - apply div_finite_nan.
Qed.

Lemma compute_nan_iff_witness :
  exists v, eval compute (exec (update nan_preds zero_target) init) = Ok v /\
            F32.is_nan v
            = F32.is_nan (sum_abs_error (exec (update nan_preds zero_target) init)).
Proof.
  apply (compute_nan_iff (exec (update nan_preds zero_target) init)).
  - apply (reach_update init nan_preds zero_target); [apply reach_init | | | reflexivity];
      wf_literal.
  - vm_compute. reflexivity.
Defined.




(** ** The sign bit *)



(** ** Overflow *)

Lemma add_inf_l (x : F32.t) :
  F32.sign_clear x = true -> F32.is_nan x = false -> F32.add F32.inf x = F32.inf.
Proof. destruct x as [[]|[]| |[] m e]; intros; try discriminate; reflexivity. Qed.

(** X9: overflow sticks.  Once [sum_abs_error] is [+inf], every further
    update with finite tensors leaves it [+inf], and [compute()] returns
    [+inf] whenever [total] is a positive int64. *)
Theorem overflow_sticks (st : MetricState) (batches : list (Tensor * Tensor)) :
  sum_abs_error st = F32.inf ->
  finite_batches batches ->
  sum_abs_error (exec (update_all batches) st) = F32.inf
  /\ (0 < total (exec (update_all batches) st) <= Int64.max_int ->
      eval (update_all batches ;; compute) st = Ok F32.inf).
Proof.
  intros Hinf Hb.
  assert (Hshapes : same_shapes batches).
  { unfold finite_batches, same_shapes in *. rewrite Forall_forall in *.
    intros b Hin. apply (Hb b Hin). }
  assert (Hsum : sum_abs_error (exec (update_all batches) st) = F32.inf).
  { clear Hshapes. revert st Hinf; induction Hb as [|[p t] rest Hpt _ IH]; intros st Hinf.
    - exact Hinf.
    - cbn [fst snd] in Hpt. destruct Hpt as (Hshape & Wp & Wt & Fp & Ft).
      rewrite (exec_update_all_cons p t rest st Hshape). apply IH.
      cbn [sum_abs_error]. rewrite Hinf. apply add_inf_l.
      + apply batch_error_sign_clear.
      + apply batch_error_not_nan; assumption. }
  split; [exact Hsum|]. intros Htotal.
  rewrite eval_then_compute by (apply run_update_all_ok; assumption).
  rewrite Hsum. destruct (of_int_pos_finite _ Htotal) as (m & e & ->). reflexivity.
Qed.

Lemma overflow_sticks_witness :
  eval (update_all [(doc_preds, doc_target)] ;; compute)
       (exec (update (tensor1 [max_float]) (tensor1 [F32.of_dyadic (-16777215) 104])) init)
  = Ok F32.inf.
Proof.
  apply (overflow_sticks
           (exec (update (tensor1 [max_float]) (tensor1 [F32.of_dyadic (-16777215) 104])) init)
           [(doc_preds, doc_target)]).
  - vm_compute. reflexivity.
  - constructor; [|constructor]. cbn [fst snd].
    split; [reflexivity|]. split; [wf_literal|]. split; [wf_literal|].
    split; reflexivity.
  - vm_compute. split; [reflexivity | discriminate].
Defined.

(** ** Exact arithmetic on representable values *)



(** A value has one canonical representation. *)
Lemma canonical_unique (m1 : positive) (e1 : Z) (m2 : positive) (e2 : Z) :
  canonical_mantissa F32.prec F32.emax m1 e1 = true ->
  canonical_mantissa F32.prec F32.emax m2 e2 = true ->
  Zpos m1 * 2 ^ (e1 + 149) = Zpos m2 * 2 ^ (e2 + 149) ->
  m1 = m2 /\ e1 = e2.
Proof.
  intros C1 C2 Hv.
  assert (L1 : F32.leb (S754_finite false m1 e1) (S754_finite false m2 e2) = true).
  { apply finite_leb; try assumption. rewrite Hv.
    assert (0 < 2 ^ (e2 + 149))
      by (apply Z.pow_pos_nonneg; [lia | apply canonical_bounds in C2; lia]).
    nia. }
  assert (L2 : F32.leb (S754_finite false m2 e2) (S754_finite false m1 e1) = true).
  { apply finite_leb; try assumption. rewrite <- Hv.
    assert (0 < 2 ^ (e1 + 149))
      by (apply Z.pow_pos_nonneg; [lia | apply canonical_bounds in C1; lia]).
    nia. }
  unfold F32.leb, SFleb, SFcompare in L1, L2.
  destruct (Z.compare_spec e1 e2) as [E|E|E].
  - subst e2. split; [|reflexivity].
    rewrite Z.compare_refl in L2.
    change (Pos.compare_cont Eq m1 m2) with (Pos.compare m1 m2) in L1.
    change (Pos.compare_cont Eq m2 m1) with (Pos.compare m2 m1) in L2.
    destruct (Pos.compare_spec m1 m2) as [C|C|C]; try discriminate; [assumption|].
    destruct (Pos.compare_spec m2 m1) as [C'|C'|C']; try discriminate; lia.
  - apply Z.compare_gt_iff in E. rewrite E in L2. discriminate.
  - discriminate.
Qed.


(** ** Integers up to [2^24] *)






(** ** Integer-valued data is accumulated exactly *)













(** ** Two updates against one update on the concatenation, again *)




